(** * Visit counter service (src/app.py): embedding and verified properties

    The service has two Flask routes, [/ping] and [/count], one module-level
    connection pool and one module-level cache, [REDIS_VERSION].  The
    handlers are embedded as programs of a state-and-exception monad over
    the process state (pool, cache, log) and the outside world (the store
    behind the pool, the network between them, the clock).

    What lies outside src/app.py is modelled as little as the handlers
    need: the redis client (a command either completes, or raises one of
    the subclasses of [RedisError]), the store's [INCR], and a clock that
    only moves forward.  Python floats are not computed with: a float is
    kept as the expression that produced it. *)

From Stdlib Require Import Ascii String ZArith NArith Lia.
From Stdlib Require Import Sorted.
From stdpp Require Import base option list strings gmap pretty.

Local Open Scope string_scope.
Local Open Scope list_scope.
Local Open Scope Z_scope.

(** ** Floats

    A Python float is an IEEE double.  The embedding does no arithmetic on
    doubles: a float is the expression that produced it, over the readings
    of the monotonic clock. *)

Inductive pyfloat : Type :=
  | float_of_clock (ns : N)                (* [perf_counter()] at tick [ns] *)
  | float_sub (a b : pyfloat)              (* [a - b] *)
  | float_mul_int (a : pyfloat) (k : Z)    (* [a * k] *)
  | float_round (a : pyfloat) (ndigits : Z). (* [round(a, ndigits)] *)

(** ** JSON values and Python dicts *)

Inductive json : Type :=
  | JNull
  | JBool (b : bool)
  | JInt (z : Z)
  | JFloat (x : pyfloat)
  | JStr (s : string).

(** A dict literal keeps its keys in insertion order; [d[k] = v] replaces
    the value of a key already present and appends a new key otherwise. *)
Definition pydict : Type := list (string * json).

Fixpoint dict_set (k : string) (v : json) (d : pydict) : pydict :=
  match d with
  | [] => [(k, v)]
  | (k', v') :: d' =>
      if String.eqb k' k then (k, v) :: d' else (k', v') :: dict_set k v d'
  end.

Fixpoint dict_get (k : string) (d : pydict) : option json :=
  match d with
  | [] => None
  | (k', v') :: d' => if String.eqb k' k then Some v' else dict_get k d'
  end.

(** The double quote character, for the f-strings that build log payloads. *)
Definition dq : string := String "034"%char EmptyString.

(** ** HTTP responses *)

Record HttpResponse : Type := mkResponse {
  status_code : nat;
  body : pydict
}.

(** [jsonify(d)] answers 200; the tuple [jsonify(d), code] answers [code]. *)
Definition jsonify (d : pydict) : HttpResponse := mkResponse 200 d.
Definition with_status (r : HttpResponse) (code : nat) : HttpResponse :=
  mkResponse code (body r).

(** ** Logging: the calls made on [logger], in order

    What the handlers installed by [basicConfig] write for a record is
    not part of the embedding. *)

Inductive level : Type := INFO | WARNING | ERROR.

Record LogRecord : Type := mkLog {
  levelname : level;
  message : string;
  custom_data : option string   (* the [extra] payload, when one is passed *)
}.

(** ** The connection pool (lines 48-56)

    [port] only selects the server and is left out; the other keyword
    arguments are kept as written.  Timeouts are in seconds. *)

Record ConnectionPool : Type := mkPool {
  host : string;
  max_connections : nat;
  socket_timeout : N;
  socket_connect_timeout : N;
  health_check_interval : N;
  decode_responses : bool
}.

(** ** Exceptions of the redis client; all are subclasses of [RedisError] *)

Inductive RedisError : Type :=
  | ConnectionError (msg : string)   (* the connection could not be made *)
  | TimeoutError (msg : string)      (* connecting or reading took too long *)
  | ResponseError (msg : string).    (* the server answered with an error *)

Definition str (e : RedisError) : string :=
  match e with
  | ConnectionError m | TimeoutError m | ResponseError m => m
  end.

(** ** The world outside the process *)

Inductive command : Type :=
  | CmdInfo
  | CmdPing
  | CmdIncr (key : string).

Inductive reach : Type :=
  | Reached (ns : N)  (* the connection is ready after [ns] nanoseconds *)
  | Refused           (* the operating system reports failure at once *)
  | Silent.           (* nothing ever comes back *)

Inductive arrival : Type :=
  | After (ns : N)    (* the reply arrives after [ns] nanoseconds *)
  | Never.

(** How the network treats one command: what becomes of the connection,
    how long the reply takes, and the text the operating system gives
    when it refuses the connection. *)
Record link : Type := mkLink {
  connect : reach;
  answer : arrival;
  detail : string
}.

Definition link_down : link :=
  mkLink Refused Never "Error 111 connecting to redis:6379. Connection refused.".
Definition link_up : link := mkLink (Reached 0) (After 0) "".

Record World : Type := mkWorld {
  store : gmap string Z;             (* integer keys of the store *)
  server_info : gmap string string;  (* what INFO reports *)
  now_ns : N;                        (* monotonic clock, nanoseconds *)
  net : list link;                   (* treatment of the commands to come *)
  attempts : list command;           (* commands the client tried to send *)
  executed : list command            (* commands the server ran *)
}.

Record Proc : Type := mkProc {
  environ : gmap string string;
  redis_pool : ConnectionPool;
  REDIS_VERSION : option string;
  logs : list LogRecord
}.

Record State : Type := mkState {
  proc : Proc;
  world : World
}.

Definition set_world (w : World) (st : State) : State := mkState (proc st) w.

Definition set_REDIS_VERSION (v : option string) (st : State) : State :=
  let p := proc st in
  mkState (mkProc (environ p) (redis_pool p) v (logs p)) (world st).

Definition add_log (r : LogRecord) (st : State) : State :=
  let p := proc st in
  mkState (mkProc (environ p) (redis_pool p) (REDIS_VERSION p) (logs p ++ [r]))
          (world st).

Definition tick (d : N) (w : World) : World :=
  mkWorld (store w) (server_info w) (now_ns w + d)%N (net w) (attempts w)
          (executed w).

Definition take_link (c : command) (w : World) : link * World :=
  (hd link_down (net w),
   mkWorld (store w) (server_info w) (now_ns w) (tl (net w))
           (attempts w ++ [c]) (executed w)).

Definition ran (c : command) (w : World) : World :=
  mkWorld (store w) (server_info w) (now_ns w) (net w) (attempts w)
          (executed w ++ [c]).

Definition set_store (s : gmap string Z) (w : World) : World :=
  mkWorld s (server_info w) (now_ns w) (net w) (attempts w) (executed w).

(** ** The monad of the handlers: state, and [RedisError] as exception *)

Definition M (A : Type) : Type := State -> (A + RedisError) * State.

Definition ret {A} (a : A) : M A := fun st => (inl a, st).

Definition bind {A B} (m : M A) (k : A -> M B) : M B := fun st =>
  match m st with
  | (inl a, st') => k a st'
  | (inr e, st') => (inr e, st')
  end.

(** [try: m except RedisError as e: h e]; what [m] did to the state before
    raising stays done. *)
Definition try_except {A} (m : M A) (h : RedisError -> M A) : M A := fun st =>
  match m st with
  | (inl a, st') => (inl a, st')
  | (inr e, st') => h e st'
  end.

Definition gets {A} (f : State -> A) : M A := fun st => (inl (f st), st).
Definition modify (f : State -> State) : M unit := fun st => (inl tt, f st).

Notation "'let*' x ':=' c1 'in' c2" := (bind c1 (fun x => c2))
  (at level 10, x name, c1 at level 100, c2 at level 200).
Notation "c1 ;; c2" := (bind c1 (fun _ => c2))
  (at level 100, c2 at level 200, right associativity).

(** ** Standard library calls *)

Definition getenv (k d : string) : M string :=
  gets (fun st => default d (environ (proc st) !! k)).

Definition ns_per_s : N := 1000000000.

(** [time.perf_counter()]: the float made from the clock's reading. *)
Definition perf_counter : M pyfloat :=
  gets (fun st => float_of_clock (now_ns (world st))).

Definition logger_log (l : level) (msg : string) (extra : option string)
  : M unit :=
  modify (add_log (mkLog l msg extra)).

(** ** The redis client *)

Record Redis : Type := mkRedis { connection_pool : ConnectionPool }.

Definition within (a : arrival) (limit_s : N) : option N :=
  match a with
  | After ns => if (ns <=? limit_s * ns_per_s)%N then Some ns else None
  | Never => None
  end.

(** Getting a connection ready: the time it took, or the time lost and the
    exception.  A refusal raises [ConnectionError] with the system's text;
    a connection not ready within [socket_connect_timeout] raises
    [TimeoutError]. *)
Definition dial (l : link) (limit_s : N) : N + N * RedisError :=
  match connect l with
  | Reached ns =>
      if (ns <=? limit_s * ns_per_s)%N then inl ns
      else inr ((limit_s * ns_per_s)%N,
                TimeoutError "Timeout connecting to server")
  | Refused => inr (0%N, ConnectionError (detail l))
  | Silent =>
      inr ((limit_s * ns_per_s)%N, TimeoutError "Timeout connecting to server")
  end.

(** One command over a pooled connection.  If the connection cannot be
    made ready the server never sees the command.  Once sent the server
    runs it; the reply must arrive within [socket_timeout], else
    [TimeoutError].  No retry. *)
Definition roundtrip {A} (conn : Redis) (c : command)
    (srv : World -> (A + string) * World) : M A := fun st =>
  let pool := connection_pool conn in
  let '(l, w) := take_link c (world st) in
  match dial l (socket_connect_timeout pool) with
  | inr (d, e) => (inr e, set_world (tick d w) st)
  | inl dc =>
      let '(r, w) := srv (ran c (tick dc w)) in
      match within (answer l) (socket_timeout pool) with
      | None =>
          let w := tick (socket_timeout pool * ns_per_s) w in
          (inr (TimeoutError "Timeout reading from socket"), set_world w st)
      | Some da =>
          let w := tick da w in
          match r with
          | inl a => (inl a, set_world w st)
          | inr m => (inr (ResponseError m), set_world w st)
          end
      end
  end.

(** The treatment the next command will get, and whether the server can
    be reached through it. *)
Definition next_link (st : State) : link := hd link_down (net (world st)).

Definition reachable (conn : Redis) (l : link) : bool :=
  match dial l (socket_connect_timeout (connection_pool conn)) with
  | inl _ => true
  | inr _ => false
  end.

Definition int64_max : Z := 9223372036854775807.

(** INCR on the server: a missing key counts as 0; the result must fit a
    signed 64-bit integer. *)
Definition server_incr (key : string) (w : World) : (Z + string) * World :=
  let v := default 0 (store w !! key) in
  if v <? int64_max
  then (inl (v + 1), set_store (<[key := v + 1]> (store w)) w)
  else (inr "increment or decrement would overflow", w).

Module Redis.
Definition info (conn : Redis) : M (gmap string string) :=
  roundtrip conn CmdInfo (fun w => (inl (server_info w), w)).

Definition ping (conn : Redis) : M bool :=
  roundtrip conn CmdPing (fun w => (inl true, w)).

Definition incr (conn : Redis) (key : string) : M Z :=
  roundtrip conn (CmdIncr key) (server_incr key).
End Redis.

(** ** src/app.py *)

(** Module start-up (lines 45-59): the pool is built from the environment
    and the cache starts as [None]. *)
Definition startup (env : gmap string string) : Proc :=
  mkProc env
    (mkPool (default "redis" (env !! "REDIS_HOST")) 20 1 1 30 true)
    None
    [].

(** [get_redis] (lines 62-78) *)
Definition get_redis : M Redis :=
  let* pool := gets (fun st => redis_pool (proc st)) in
  let conn := mkRedis pool in
  let* cached := gets (fun st => REDIS_VERSION (proc st)) in
  match cached with
  | None =>
      try_except
        (let* i := Redis.info conn in
         let v := default "unknown" (i !! "redis_version") in
         modify (set_REDIS_VERSION (Some v)) ;;
         logger_log INFO "Connected to Redis"
           (Some ("{" +:+ dq +:+ "version" +:+ dq +:+ ": " +:+ dq +:+ v
                  +:+ dq +:+ "}")))
        (fun _ =>
           logger_log WARNING "Could not fetch Redis version" None ;;
           modify (set_REDIS_VERSION (Some "unknown")))
  | Some _ => ret tt
  end ;;
  ret conn.

Definition error_payload (e : RedisError) : string :=
  "{" +:+ dq +:+ "error" +:+ dq +:+ ": " +:+ dq +:+ str e +:+ dq +:+ "}".

(** [ping] (lines 81-106) *)
Definition ping : M HttpResponse :=
  let* start_time := perf_counter in
  let* env := getenv "FLASK_ENV" "development" in
  let response :=
    [ ("status", JStr "ok");
      ("environment", JStr env);
      ("redis_connected", JBool false);
      ("response_time_ms", JInt 0);
      ("version", JStr "1.2.0") ] in
  let* response :=
    try_except
      (let* redis_conn := get_redis in
       Redis.ping redis_conn ;;
       ret (dict_set "redis_connected" (JBool true) response))
      (fun e =>
         logger_log ERROR "Redis ping failed" (Some (error_payload e)) ;;
         ret response) in
  let* end_time := perf_counter in
  let response :=
    dict_set "response_time_ms"
      (JFloat (float_round
                 (float_mul_int (float_sub end_time start_time) 1000) 2))
      response in
  ret (jsonify response).

Definition json_of_version (v : option string) : json :=
  match v with
  | Some s => JStr s
  | None => JNull
  end.

Definition error_body : pydict :=
  [ ("status", JStr "error");
    ("message", JStr "Counter service unavailable");
    ("action", JStr "Please try again later");
    ("severity", JStr "high") ].

(** The [try] block of [count] (lines 113-128) *)
Definition count_try : M HttpResponse :=
  let* redis_conn := get_redis in
  let* visits := Redis.incr redis_conn "counter" in
  logger_log INFO "Visit recorded"
    (Some ("{" +:+ dq +:+ "visit_count" +:+ dq +:+ ": " +:+ pretty visits
           +:+ "}")) ;;
  let* version := gets (fun st => REDIS_VERSION (proc st)) in
  ret (jsonify
         [ ("status", JStr "ok");
           ("visit_count", JInt visits);
           ("note", JStr "Try hitting refresh to see the counter increase!");
           ("redis_version", json_of_version version) ]).

(** [count] (lines 109-139) *)
Definition count : M HttpResponse :=
  try_except count_try
    (fun e =>
       logger_log ERROR "Redis operation failed" (Some (error_payload e)) ;;
       ret (with_status (jsonify error_body) 503)).

(** ** Serving requests *)

Inductive request : Type := GET_ping | GET_count.

Definition handler (r : request) : M HttpResponse :=
  match r with
  | GET_ping => ping
  | GET_count => count
  end.

(** Flask turns an exception that leaves a view into a 500 response. *)
Definition serve (r : request) (st : State) : HttpResponse * State :=
  match handler r st with
  | (inl resp, st') => (resp, st')
  | (inr _, st') => (mkResponse 500 [], st')
  end.

Fixpoint run (rs : list request) (st : State) : list HttpResponse * State :=
  match rs with
  | [] => ([], st)
  | r :: rs' =>
      let '(resp, st1) := serve r st in
      let '(resps, st2) := run rs' st1 in
      (resp :: resps, st2)
  end.

(** A fresh process in front of a store that is up. *)
Definition fresh_world (links : list link) : World :=
  mkWorld ∅ {[ "redis_version" := "7.2.4" ]} 0 links [] [].

Definition fresh (links : list link) : State :=
  mkState (startup ∅) (fresh_world links).

(** ** Names for what the properties speak about *)

(** A server routine that touches nothing but the store. *)
Definition store_only {A} (srv : World -> (A + string) * World) : Prop :=
  forall w, exists r s, srv w = (r, set_store s w).

Definition counter_value (st : State) : Z :=
  default 0 (store (world st) !! "counter").

(** The connection [get_redis] hands out: a client on the module's pool. *)
Definition conn_of (st : State) : Redis := mkRedis (redis_pool (proc st)).

Definition version_record (v : string) : LogRecord :=
  mkLog INFO "Connected to Redis"
    (Some ("{" +:+ dq +:+ "version" +:+ dq +:+ ": " +:+ dq +:+ v +:+ dq +:+ "}")).

Definition fetch_warning : LogRecord :=
  mkLog WARNING "Could not fetch Redis version" None.

Definition seconds (st : State) : pyfloat := float_of_clock (now_ns (world st)).

(** The [response_time_ms] that [ping] computes between two states. *)
Definition response_time_ms (st st' : State) : pyfloat :=
  float_round (float_mul_int (float_sub (seconds st') (seconds st)) 1000) 2.

Definition ping_body (env : string) (connected : bool) (ms : pyfloat) : pydict :=
  [ ("status", JStr "ok");
    ("environment", JStr env);
    ("redis_connected", JBool connected);
    ("response_time_ms", JFloat ms);
    ("version", JStr "1.2.0") ].

Definition flask_env (st : State) : string :=
  default "development" (environ (proc st) !! "FLASK_ENV").

Definition ping_failed_record (e : RedisError) : LogRecord :=
  mkLog ERROR "Redis ping failed" (Some (error_payload e)).

Definition count_body (visits : Z) (version : option string) : pydict :=
  [ ("status", JStr "ok");
    ("visit_count", JInt visits);
    ("note", JStr "Try hitting refresh to see the counter increase!");
    ("redis_version", json_of_version version) ].

Definition visit_record (visits : Z) : LogRecord :=
  mkLog INFO "Visit recorded"
    (Some ("{" +:+ dq +:+ "visit_count" +:+ dq +:+ ": " +:+ pretty visits +:+ "}")).

Definition count_failed_record (e : RedisError) : LogRecord :=
  mkLog ERROR "Redis operation failed" (Some (error_payload e)).

Definition error_response : HttpResponse := mkResponse 503 error_body.

Definition visit_count (r : HttpResponse) : option Z :=
  match dict_get "visit_count" (body r) with
  | Some (JInt z) => Some z
  | _ => None
  end.

Definition is_count (r : request) : bool :=
  match r with
  | GET_count => true
  | GET_ping => false
  end.

Definition ok (r : HttpResponse) : Prop := status_code r = 200%nat.

Definition cache (st : State) : option string := REDIS_VERSION (proc st).

Definition redis_version (r : HttpResponse) : option json :=
  dict_get "redis_version" (body r).

(** A stretch of requests during which no increment reaches the store:
    [/ping] requests, and [/count] requests whose increment is sent while
    the server cannot be reached. *)
Inductive outage : State -> State -> Prop :=
  | outage_none st : outage st st
  | outage_ping st st' :
      outage (serve GET_ping st).2 st' -> outage st st'
  | outage_count st st' :
      reachable (conn_of st) (next_link (get_redis st).2) = false ->
      outage (serve GET_count st).2 st' -> outage st st'.

(** Two states that agree on everything except the text of the errors the
    network produces, the log, and the lists of commands. *)
Definition link_sim (l1 l2 : link) : Prop :=
  connect l1 = connect l2 /\ answer l1 = answer l2.

Definition world_sim (w1 w2 : World) : Prop :=
  store w1 = store w2
  /\ server_info w1 = server_info w2
  /\ now_ns w1 = now_ns w2
  /\ Forall2 link_sim (net w1) (net w2).

Definition proc_sim (p1 p2 : Proc) : Prop :=
  environ p1 = environ p2
  /\ redis_pool p1 = redis_pool p2
  /\ REDIS_VERSION p1 = REDIS_VERSION p2.

Definition state_sim (st1 st2 : State) : Prop :=
  proc_sim (proc st1) (proc st2) /\ world_sim (world st1) (world st2).

(** Equal values, or two exceptions, whatever they say. *)
Definition result_sim {A} (r1 r2 : A + RedisError) : Prop :=
  match r1, r2 with
  | inl a1, inl a2 => a1 = a2
  | inr _, inr _ => True
  | _, _ => False
  end.

Definition msim {A} (m1 m2 : M A) : Prop :=
  forall st1 st2, state_sim st1 st2 ->
    result_sim (m1 st1).1 (m2 st2).1 /\ state_sim (m1 st1).2 (m2 st2).2.

(** A server routine that reads and writes the store and the server's
    information only. *)
Definition srv_sim {A} (srv : World -> (A + string) * World) : Prop :=
  forall w1 w2, world_sim w1 w2 ->
    (srv w1).1 = (srv w2).1 /\ world_sim (srv w1).2 (srv w2).2.

(** ** Logging configuration (lines 23-42)

    [basicConfig] installs one handler whose formatter applies the format
    string below to the attributes of each record with the [%] operator.
    Of that operator the embedding covers what the format string uses:
    literal text, [%%] and the conversion [%(name)s]. *)

Definition nl : string := String "010"%char EmptyString.

Definition quoted (s : string) : string := dq +:+ s +:+ dq.

(** The [format] argument of [basicConfig] (lines 25-32), character by
    character. *)
Definition LOG_FORMAT : string :=
  "{" +:+ nl +:+
  "        " +:+ quoted "timestamp" +:+ ": " +:+ quoted "%(asctime)s" +:+ "," +:+ nl +:+
  "        " +:+ quoted "service" +:+ ": " +:+ quoted "visit-counter" +:+ "," +:+ nl +:+
  "        " +:+ quoted "level" +:+ ": " +:+ quoted "%(levelname)s" +:+ "," +:+ nl +:+
  "        " +:+ quoted "thread" +:+ ": " +:+ quoted "%(threadName)s" +:+ "," +:+ nl +:+
  "        " +:+ quoted "message" +:+ ": " +:+ quoted "%(message)s" +:+ "," +:+ nl +:+
  "        " +:+ quoted "context" +:+ ": %(custom_data)s" +:+ nl +:+
  "    }".

Inductive piece : Type :=
  | Lit (text : string)
  | Field (name : string).

Inductive pmode : Type :=
  | InText (lit : string)      (* literal text read so far *)
  | AfterPercent               (* just after a [%] *)
  | InName (name : string)     (* inside [%( ... ] *)
  | AfterName (name : string). (* after [%(name)], before the conversion *)

Definition flush (lit : string) (t : list piece) : list piece :=
  match lit with
  | EmptyString => t
  | _ => Lit lit :: t
  end.

(** Reading a format string; [None] where the string leaves the part of
    [%] that is covered. *)
Fixpoint parse_percent (mode : pmode) (s : string) : option (list piece) :=
  match s with
  | EmptyString =>
      match mode with
      | InText lit => Some (flush lit [])
      | _ => None
      end
  | String c s' =>
      match mode with
      | InText lit =>
          if Ascii.eqb c "%" then flush lit <$> parse_percent AfterPercent s'
          else parse_percent (InText (lit +:+ String c EmptyString)) s'
      | AfterPercent =>
          if Ascii.eqb c "%" then parse_percent (InText "%") s'
          else if Ascii.eqb c "(" then parse_percent (InName "") s'
          else None
      | InName name =>
          if Ascii.eqb c ")" then parse_percent (AfterName name) s'
          else parse_percent (InName (name +:+ String c EmptyString)) s'
      | AfterName name =>
          if Ascii.eqb c "s" then cons (Field name) <$> parse_percent (InText "") s'
          else None
      end
  end.

(** [template % d]: the text, or the first key that [d] lacks
    ([KeyError]). *)
Fixpoint render (t : list piece) (d : gmap string string) : string + string :=
  match t with
  | [] => inl ""
  | Lit text :: t' =>
      match render t' d with
      | inl s => inl (text +:+ s)
      | inr k => inr k
      end
  | Field name :: t' =>
      match d !! name with
      | None => inr name
      | Some v =>
          match render t' d with
          | inl s => inl (v +:+ s)
          | inr k => inr k
          end
      end
  end.

Definition level_name (l : level) : string :=
  match l with
  | INFO => "INFO"
  | WARNING => "WARNING"
  | ERROR => "ERROR"
  end.

(** The attributes of a record that a format can name: those the logging
    machinery sets ([asctime] and [threadName] are given), and
    [custom_data] when the call passed it in [extra]. *)
Definition record_dict (asctime threadName : string) (r : LogRecord)
  : gmap string string :=
  let base : gmap string string :=
    <["asctime" := asctime]>
      (<["levelname" := level_name (levelname r)]>
         (<["threadName" := threadName]>
            (<["message" := message r]> ∅))) in
  match custom_data r with
  | Some c => <["custom_data" := c]> base
  | None => base
  end.

(** [logging.Formatter.format] with format string [fmt]: the line, or the
    attribute the record lacks. *)
Definition Formatter_format (fmt asctime threadName : string) (r : LogRecord)
  : option (string + string) :=
  t ← parse_percent (InText "") fmt;
  Some (render t (record_dict asctime threadName r)).

(** [ServiceContextFormatter.format] (lines 39-42): the record is changed
    in place, then formatted; both the result and the record are given. *)
Definition ServiceContextFormatter_format (fmt asctime threadName : string)
    (r : LogRecord) : option (string + string) * LogRecord :=
  let record := mkLog (levelname r) (message r) (Some "{}") in
  (Formatter_format fmt asctime threadName record, record).

(** The line in the configured format that the handler installed by
    [basicConfig] writes for a record, when there is one. *)
Definition emit (asctime threadName : string) (r : LogRecord) : option string :=
  match Formatter_format LOG_FORMAT asctime threadName r with
  | Some (inl line) => Some line
  | _ => None
  end.

(** What that handler does with a record: it writes the formatted line to
    its stream, or, when formatting raises, its [handleError] writes a
    logging-error report to [sys.stderr] in place of the line.  Of the
    report, the attribute that was missing and the message of the record
    are kept. *)
Inductive emission : Type :=
  | Written (line : string)
  | Reported (missing message : string).

Definition StreamHandler_emit (asctime threadName : string) (r : LogRecord)
  : option emission :=
  match Formatter_format LOG_FORMAT asctime threadName r with
  | Some (inl line) => Some (Written line)
  | Some (inr key) => Some (Reported key (message r))
  | None => None
  end.

(** The line the format describes, for given values of its five fields. *)
Definition log_line (asctime lvl thread msg context : string) : string :=
  "{" +:+ nl +:+
  "        " +:+ quoted "timestamp" +:+ ": " +:+ quoted asctime +:+ "," +:+ nl +:+
  "        " +:+ quoted "service" +:+ ": " +:+ quoted "visit-counter" +:+ "," +:+ nl +:+
  "        " +:+ quoted "level" +:+ ": " +:+ quoted lvl +:+ "," +:+ nl +:+
  "        " +:+ quoted "thread" +:+ ": " +:+ quoted thread +:+ "," +:+ nl +:+
  "        " +:+ quoted "message" +:+ ": " +:+ quoted msg +:+ "," +:+ nl +:+
  "        " +:+ quoted "context" +:+ ": " +:+ context +:+ nl +:+
  "    }".

(** The records the service can log. *)
Inductive app_record : LogRecord -> Prop :=
  | rec_version v : app_record (version_record v)
  | rec_warning : app_record fetch_warning
  | rec_ping e : app_record (ping_failed_record e)
  | rec_visit n : app_record (visit_record n)
  | rec_count e : app_record (count_failed_record e).

(** The one command a request sends after [get_redis]. *)
Definition command_of (r : request) : command :=
  match r with
  | GET_ping => CmdPing
  | GET_count => CmdIncr "counter"
  end.

(** * Properties *)

Example fresh_count_twice :
  map body (fst (run [GET_count; GET_count] (fresh [link_up; link_up; link_up])))
  = [ [ ("status", JStr "ok"); ("visit_count", JInt 1);
        ("note", JStr "Try hitting refresh to see the counter increase!");
        ("redis_version", JStr "7.2.4") ];
      [ ("status", JStr "ok"); ("visit_count", JInt 2);
        ("note", JStr "Try hitting refresh to see the counter increase!");
        ("redis_version", JStr "7.2.4") ] ].
Proof. vm_compute. reflexivity. Qed.

(** ** The client: what one command can do *)

Ltac unfold_m :=
  unfold bind, ret, try_except, gets, modify, logger_log, getenv,
    perf_counter in *.

Lemma store_only_const {A} (f : World -> A) :
  store_only (fun w => (inl (f w), w)).
Proof. intros w. exists (inl (f w)), (store w). by destruct w. Qed.

Lemma store_only_incr key : store_only (server_incr key).
Proof.
  intros w. unfold server_incr. case_match; eauto.
  eexists _, (store w). by destruct w.
Qed.

Lemma within_bound a lim d : within a lim = Some d -> (d <= lim * ns_per_s)%N.
Proof.
  destruct a as [ns|]; simpl; [|done].
  destruct (N.leb_spec ns (lim * ns_per_s)); naive_solver.
Qed.

Lemma dial_bound l lim :
  match dial l lim with
  | inl d | inr (d, _) => (d <= lim * ns_per_s)%N
  end.
Proof.
  unfold dial. destruct (connect l) as [ns| |]; [|lia..].
  destruct (N.leb_spec ns (lim * ns_per_s)); lia.
Qed.

(** Whatever the network does, a command leaves the process alone, uses up
    one entry of the schedule, is recorded as attempted, and takes no
    longer than the two timeouts allow. *)
Lemma roundtrip_frame {A} conn c (srv : World -> (A + string) * World) st :
  store_only srv ->
  let st' := (roundtrip conn c srv st).2 in
  let pool := connection_pool conn in
  proc st' = proc st
  /\ server_info (world st') = server_info (world st)
  /\ net (world st') = tl (net (world st))
  /\ attempts (world st') = attempts (world st) ++ [c]
  /\ (now_ns (world st) <= now_ns (world st'))%N
  /\ (now_ns (world st') <=
        now_ns (world st)
        + (socket_connect_timeout pool + socket_timeout pool) * ns_per_s)%N.
Proof.
  intros Hsrv. unfold roundtrip, take_link. simpl.
  pose proof (dial_bound (hd link_down (net (world st)))
                (socket_connect_timeout (connection_pool conn))) as Hc.
  destruct (dial _ _) as [dc|[d e]]; simpl.
  - match goal with |- context [srv ?w] => destruct (Hsrv w) as (r & s & ->) end.
    destruct (within (answer _) _) as [da|] eqn:Ha; simpl.
    + apply within_bound in Ha. destruct r; simpl; repeat split; lia.
    + repeat split; lia.
  - repeat split; lia.
Qed.

(** A command sent while the server cannot be reached raises, and the
    server never sees it. *)
Lemma roundtrip_unreached {A} conn c (srv : World -> (A + string) * World) st :
  reachable conn (next_link st) = false ->
  (exists e, (roundtrip conn c srv st).1 = inr e)
  /\ store (world (roundtrip conn c srv st).2) = store (world st)
  /\ executed (world (roundtrip conn c srv st).2) = executed (world st).
Proof.
  unfold reachable, next_link, roundtrip, take_link. simpl.
  destruct (dial _ _) as [dc|[d e]]; simpl; [done|]. eauto.
Qed.

Lemma info_store conn st :
  store (world (Redis.info conn st).2) = store (world st).
Proof.
  unfold Redis.info, roundtrip, take_link. simpl.
  by repeat (case_match; simpl).
Qed.

Lemma ping_store conn st :
  store (world (Redis.ping conn st).2) = store (world st).
Proof.
  unfold Redis.ping, roundtrip, take_link. simpl.
  by repeat (case_match; simpl).
Qed.

(** A successful INCR returns the old value plus one and stores it. *)
Lemma incr_ok conn st v :
  (Redis.incr conn "counter" st).1 = inl v ->
  v = counter_value st + 1
  /\ counter_value (Redis.incr conn "counter" st).2 = v.
Proof.
  unfold Redis.incr, roundtrip, take_link, server_incr, counter_value. simpl.
  repeat (case_match; simpl in *; simplify_eq); intros; simplify_eq;
    by rewrite ?lookup_insert_eq.
Qed.

(** ** [get_redis], equation by equation *)

Lemma get_redis_cached st v :
  REDIS_VERSION (proc st) = Some v ->
  get_redis st = (inl (conn_of st), st).
Proof. intros H. unfold get_redis. unfold_m. by rewrite H. Qed.

Lemma get_redis_fetched st i st1 :
  REDIS_VERSION (proc st) = None ->
  Redis.info (conn_of st) st = (inl i, st1) ->
  let v := default "unknown" (i !! "redis_version") in
  get_redis st
  = (inl (conn_of st), add_log (version_record v) (set_REDIS_VERSION (Some v) st1)).
Proof.
  intros H Hi. unfold get_redis. unfold_m. rewrite H.
  unfold conn_of in Hi. by rewrite Hi.
Qed.

Lemma get_redis_fetch_failed st e st1 :
  REDIS_VERSION (proc st) = None ->
  Redis.info (conn_of st) st = (inr e, st1) ->
  get_redis st
  = (inl (conn_of st), set_REDIS_VERSION (Some "unknown") (add_log fetch_warning st1)).
Proof.
  intros H Hi. unfold get_redis. unfold_m. rewrite H.
  unfold conn_of in Hi. by rewrite Hi.
Qed.

(** [get_redis] always returns, with the module's pool. *)
Lemma get_redis_returns st : (get_redis st).1 = inl (conn_of st).
Proof.
  destruct (REDIS_VERSION (proc st)) as [v|] eqn:H.
  - by erewrite get_redis_cached.
  - destruct (Redis.info (conn_of st) st) as [[i|e] st1] eqn:Hi.
    + by erewrite get_redis_fetched.
    + by erewrite get_redis_fetch_failed.
Qed.

(** What [get_redis] leaves alone, and what it guarantees. *)
Lemma get_redis_frame st :
  let st' := (get_redis st).2 in
  environ (proc st') = environ (proc st)
  /\ redis_pool (proc st') = redis_pool (proc st)
  /\ store (world st') = store (world st)
  /\ server_info (world st') = server_info (world st)
  /\ is_Some (REDIS_VERSION (proc st')).
Proof.
  destruct (REDIS_VERSION (proc st)) as [v|] eqn:H.
  - erewrite get_redis_cached by done. simpl. rewrite H. eauto 10.
  - pose proof (roundtrip_frame (conn_of st) CmdInfo
                  (fun w => (inl (server_info w), w)) st
                  (store_only_const server_info)) as (Hp & Hi & _).
    pose proof (info_store (conn_of st) st) as Hs.
    fold (Redis.info (conn_of st)) in Hp, Hi.
    destruct (Redis.info (conn_of st) st) as [[i|e] st1] eqn:Hinfo;
      simpl in Hp, Hi, Hs.
    + erewrite get_redis_fetched by done. simpl. rewrite Hp. eauto 10.
    + erewrite get_redis_fetch_failed by done. simpl. rewrite Hp. eauto 10.
Qed.

(** ** The handlers, equation by equation *)

Lemma ping_eq st :
  ping st =
  match Redis.ping (conn_of st) (get_redis st).2 with
  | (inl _, st2) =>
      (inl (jsonify (ping_body (flask_env st) true (response_time_ms st st2))),
       st2)
  | (inr e, st2) =>
      (inl (jsonify (ping_body (flask_env st) false (response_time_ms st st2))),
       add_log (ping_failed_record e) st2)
  end.
Proof.
  pose proof (get_redis_returns st) as Hr.
  unfold ping. unfold_m. simpl.
  destruct (get_redis st) as [r st1]. simpl in Hr. subst r. simpl.
  by destruct (Redis.ping (conn_of st) st1) as [[b|e] st2].
Qed.

Lemma count_try_eq st :
  count_try st =
  match Redis.incr (conn_of st) "counter" (get_redis st).2 with
  | (inl visits, st2) =>
      (inl (jsonify (count_body visits (REDIS_VERSION (proc st2)))),
       add_log (visit_record visits) st2)
  | (inr e, st2) => (inr e, st2)
  end.
Proof.
  pose proof (get_redis_returns st) as Hr.
  unfold count_try. unfold_m. simpl.
  destruct (get_redis st) as [r st1]. simpl in Hr. subst r. simpl.
  by destruct (Redis.incr (conn_of st) "counter" st1) as [[v|e] st2].
Qed.

Lemma count_eq st :
  count st =
  match Redis.incr (conn_of st) "counter" (get_redis st).2 with
  | (inl visits, st2) =>
      (inl (jsonify (count_body visits (REDIS_VERSION (proc st2)))),
       add_log (visit_record visits) st2)
  | (inr e, st2) => (inl error_response, add_log (count_failed_record e) st2)
  end.
Proof.
  unfold count, try_except. rewrite count_try_eq.
  by destruct (Redis.incr _ _ _) as [[v|e] st2].
Qed.

Lemma redis_ping_frame conn st :
  let st' := (Redis.ping conn st).2 in
  let pool := connection_pool conn in
  proc st' = proc st
  /\ server_info (world st') = server_info (world st)
  /\ net (world st') = tl (net (world st))
  /\ attempts (world st') = attempts (world st) ++ [CmdPing]
  /\ (now_ns (world st) <= now_ns (world st'))%N
  /\ (now_ns (world st') <=
        now_ns (world st)
        + (socket_connect_timeout pool + socket_timeout pool) * ns_per_s)%N.
Proof. apply roundtrip_frame, store_only_const. Qed.

Lemma redis_incr_frame conn key st :
  let st' := (Redis.incr conn key st).2 in
  let pool := connection_pool conn in
  proc st' = proc st
  /\ server_info (world st') = server_info (world st)
  /\ net (world st') = tl (net (world st))
  /\ attempts (world st') = attempts (world st) ++ [CmdIncr key]
  /\ (now_ns (world st) <= now_ns (world st'))%N
  /\ (now_ns (world st') <=
        now_ns (world st)
        + (socket_connect_timeout pool + socket_timeout pool) * ns_per_s)%N.
Proof. apply roundtrip_frame, store_only_incr. Qed.

(** [ping] leaves the world as its probe left it. *)
Lemma ping_world st :
  world (ping st).2 = world (Redis.ping (conn_of st) (get_redis st).2).2.
Proof.
  rewrite ping_eq. by destruct (Redis.ping _ _) as [[b|e] st2].
Qed.

(** ** [/ping] *)

Lemma ping_returns_200 st :
  exists resp,
    (ping st).1 = inl resp
    /\ (serve GET_ping st).1 = resp
    /\ status_code resp = 200%nat.
Proof.
  unfold serve, handler. rewrite ping_eq.
  destruct (Redis.ping _ _) as [[b|e] st2]; simpl; eauto.
Qed.

(** C2. [/ping] answers 200 whatever the backend does, and
    [redis_connected] is false exactly when the liveness probe raised. *)
Theorem ping_always_200 (st : State) :
  exists resp,
    (ping st).1 = inl resp
    /\ (serve GET_ping st).1 = resp
    /\ status_code resp = 200%nat
    /\ (dict_get "redis_connected" (body resp) = Some (JBool false)
        <-> exists e, (Redis.ping (conn_of st) (get_redis st).2).1 = inr e)
    /\ (dict_get "redis_connected" (body resp) = Some (JBool true)
        <-> exists b, (Redis.ping (conn_of st) (get_redis st).2).1 = inl b).
Proof.
  unfold serve, handler. rewrite ping_eq.
  destruct (Redis.ping _ _) as [[b|e] st2]; simpl;
    eexists; (do 3 (split; [reflexivity|])); simpl;
    split; split; try done; eauto; by intros [? ?].
Qed.

(** ** [/count] *)

(** C6. When the increment raises, whether because the store was not
    reached or because the operation failed, [/count] answers 503 with the
    fixed four-field body; no exception ever leaves the handler. *)
Theorem count_backend_failure (st : State) :
  (exists resp, (count st).1 = inl resp)
  /\ (forall e,
        (Redis.incr (conn_of st) "counter" (get_redis st).2).1 = inr e ->
        (count st).1
        = inl (mkResponse 503
                 [ ("status", JStr "error");
                   ("message", JStr "Counter service unavailable");
                   ("action", JStr "Please try again later");
                   ("severity", JStr "high") ]))
  /\ (reachable (conn_of st) (next_link (get_redis st).2) = false ->
      (count st).1 = inl (mkResponse 503 error_body)).
Proof.
  pose proof (roundtrip_unreached (conn_of st) (CmdIncr "counter")
                (server_incr "counter") (get_redis st).2) as Hdown.
  fold (Redis.incr (conn_of st) "counter") in Hdown.
  rewrite count_eq.
  destruct (Redis.incr _ _ _) as [[v|e'] st2]; simpl in *.
  - split; [eauto|]. split; [done|]. intros H.
    by destruct (Hdown H) as ([e He] & _).
  - split; [eauto|]. done.
Qed.

Lemma count_backend_failure_witness :
  (count (fresh [link_up; link_down])).1 = inl (mkResponse 503 error_body)
  /\ (count (fresh [link_up; mkLink (Reached 0) Never ""])).1
     = inl (mkResponse 503 error_body).
Proof.
  split.
  - apply (proj2 (proj2 (count_backend_failure (fresh [link_up; link_down])))).
    vm_compute. reflexivity.
  - apply (proj1 (proj2 (count_backend_failure
                           (fresh [link_up; mkLink (Reached 0) Never ""])))
             (TimeoutError "Timeout reading from socket")).
    vm_compute. reflexivity.
Defined.

(** ** Runs of requests *)

Lemma run_cons r rs st :
  run (r :: rs) st
  = ((serve r st).1 :: (run rs (serve r st).2).1, (run rs (serve r st).2).2).
Proof.
  simpl. destruct (serve r st) as [resp st1]. simpl.
  by destruct (run rs st1) as [resps st2].
Qed.

Lemma omap_step {A B} (f : A -> option B) (x : A) (l : list A) :
  omap f (x :: l)
  = match f x with
    | Some y => y :: omap f l
    | None => omap f l
    end.
Proof. reflexivity. Qed.

Lemma counter_value_get_redis st :
  counter_value (get_redis st).2 = counter_value st.
Proof.
  unfold counter_value. by rewrite (proj1 (proj2 (proj2 (get_redis_frame st)))).
Qed.

Lemma serve_ping_counter st :
  visit_count (serve GET_ping st).1 = None
  /\ store (world (serve GET_ping st).2) = store (world st).
Proof.
  pose proof (ping_world st) as Hw.
  pose proof (ping_store (conn_of st) (get_redis st).2) as Hs.
  rewrite (proj1 (proj2 (proj2 (get_redis_frame st)))) in Hs.
  unfold serve, handler. rewrite ping_eq in *.
  destruct (Redis.ping _ _) as [[b|e] st2]; simpl in *; by rewrite ?Hw.
Qed.

Lemma serve_count_ok st :
  ok (serve GET_count st).1 ->
  visit_count (serve GET_count st).1 = Some (counter_value st + 1)
  /\ counter_value (serve GET_count st).2 = counter_value st + 1.
Proof.
  pose proof (incr_ok (conn_of st) (get_redis st).2) as Hi.
  rewrite counter_value_get_redis in Hi.
  unfold serve, handler, ok. rewrite count_eq.
  destruct (Redis.incr _ _ _) as [[v|e] st2]; simpl in *; [|done].
  intros _. destruct (Hi v eq_refl) as [-> Hv]. done.
Qed.

(** C1. Over any run in which every request is answered 200, the
    [visit_count] values returned by [/count] are the stored value plus 1,
    plus 2, and so on, one more per call ([/ping] requests in between
    change nothing); starting with the counter unset they are 1, 2, and
    so on. *)
Theorem count_increments (rs : list request) (st : State) :
  Forall ok (run rs st).1 ->
  omap visit_count (run rs st).1
  = map (fun i => counter_value st + Z.of_nat i)
        (seq 1 (length (filter is_count rs)))
  /\ (store (world st) !! "counter" = None ->
      omap visit_count (run rs st).1
      = map Z.of_nat (seq 1 (length (filter is_count rs)))).
Proof.
  intros Hok.
  assert (Hgen : forall rs st, Forall ok (run rs st).1 ->
            omap visit_count (run rs st).1
            = map (fun i => counter_value st + Z.of_nat i)
                  (seq 1 (length (filter is_count rs)))).
  { clear. induction rs as [|r rs IH]; intros st Hok; [done|].
    rewrite run_cons in Hok |- *. cbn [fst] in Hok |- *.
    apply Forall_cons in Hok as [Hr Hrs]. specialize (IH _ Hrs).
    rewrite omap_step.
    rewrite IH. destruct r; simpl.
    - destruct (serve_ping_counter st) as [-> Hs].
      unfold counter_value. by rewrite Hs.
    - destruct (serve_count_ok st Hr) as [-> ->].
      simpl. f_equal.
      rewrite <- (seq_shift _ 1), map_map.
      apply map_ext. intros i. lia. }
  split; [by apply Hgen|].
  intros Hnone. rewrite (Hgen _ _ Hok). unfold counter_value. rewrite Hnone.
  apply map_ext. intros i. simpl. lia.
Qed.

Lemma count_increments_witness :
  omap visit_count
    (run [GET_count; GET_ping; GET_count]
         (fresh [link_up; link_up; link_down; link_up])).1
  = [1; 2].
Proof.
  apply (proj2 (count_increments [GET_count; GET_ping; GET_count]
                  (fresh [link_up; link_up; link_down; link_up])
                  ltac:(vm_compute; repeat constructor))
           ltac:(reflexivity)).
Defined.

(** ** The version cache *)

(** With the cache set, [get_redis] does nothing at all. *)
Lemma get_redis_idle st v : cache st = Some v -> (get_redis st).2 = st.
Proof. intros H. by erewrite get_redis_cached. Qed.

(** What one request does to the cache, to the list of attempted commands
    and to the [redis_version] it reports. *)
Lemma serve_cache r st :
  let st' := (serve r st).2 in
  let resp := (serve r st).1 in
  cache st' = cache (get_redis st).2
  /\ is_Some (cache st')
  /\ (r = GET_count -> ok resp -> redis_version resp = Some (json_of_version (cache st')))
  /\ (forall v, cache st = Some v ->
        cache st' = Some v
        /\ exists c, attempts (world st') = attempts (world st) ++ [c]
                     /\ c <> CmdInfo).
Proof.
  pose proof (get_redis_frame st) as (_ & _ & _ & _ & Hsome).
  destruct r; unfold serve, handler, cache, ok, redis_version in *.
  - pose proof (redis_ping_frame (conn_of st) (get_redis st).2)
      as (Hp & _ & _ & Ha & _).
    rewrite ping_eq.
    destruct (Redis.ping _ _) as [[b|e] st2]; simpl in *; rewrite Hp;
      do 3 (split; [done|]); intros v Hv;
      rewrite (get_redis_idle st v Hv) in Ha |- *; eauto.
  - pose proof (redis_incr_frame (conn_of st) "counter" (get_redis st).2)
      as (Hp & _ & _ & Ha & _).
    rewrite count_eq.
    destruct (Redis.incr _ _ _) as [[n|e] st2]; simpl in *; rewrite Hp;
      do 3 (split; [done|]); intros v Hv;
      rewrite (get_redis_idle st v Hv) in Ha |- *; eauto.
Qed.

(** Once the cache holds [v], it holds [v] after any run; the run sends no
    INFO, and every successful [/count] reports [v]. *)
Lemma run_cached rs st v :
  cache st = Some v ->
  cache (run rs st).2 = Some v
  /\ (exists new, attempts (world (run rs st).2) = attempts (world st) ++ new
                  /\ CmdInfo ∉ new)
  /\ Forall2 (fun r resp =>
                r = GET_count -> ok resp -> redis_version resp = Some (JStr v))
       rs (run rs st).1.
Proof.
  revert st. induction rs as [|r rs IH]; intros st Hv.
  - simpl. split; [done|]. split; [|constructor].
    exists []. rewrite app_nil_r. split; [done|]. apply not_elem_of_nil.
  - rewrite run_cons. cbn [fst snd].
    destruct (serve_cache r st) as (_ & _ & Hresp & Hkeep).
    destruct (Hkeep v Hv) as (Hv' & c & Hc & Hne).
    destruct (IH _ Hv') as (Hfin & (new & Hnew & Hnot) & Hall).
    split; [done|]. split.
    + exists (c :: new). rewrite Hnew, Hc, <- app_assoc. split; [done|].
      apply not_elem_of_cons. done.
    + constructor; [|done]. intros Hr Hok.
      rewrite (Hresp Hr Hok). cbv zeta in Hv'. by rewrite Hv'.
Qed.

(** What the first [get_redis] of a process puts in the cache. *)
Lemma get_redis_first st :
  cache st = None ->
  match (Redis.info (conn_of st) st).1 with
  | inl i => cache (get_redis st).2 = Some (default "unknown" (i !! "redis_version"))
  | inr _ => cache (get_redis st).2 = Some "unknown"
  end.
Proof.
  intros H. destruct (Redis.info (conn_of st) st) as [[i|e] st1] eqn:Hi; simpl.
  - by erewrite get_redis_fetched.
  - by erewrite get_redis_fetch_failed.
Qed.

(** C3, as the code has it.  The cache starts as [None], not as a string.
    The first request of any kind fills it: with the [redis_version] of
    the INFO reply if the fetch succeeded (with "unknown" if the reply has
    none), and with "unknown" if the fetch failed.  Every successful
    [/count] therefore reports a string; and once the cache holds a value
    it keeps that value over any later run, and every successful [/count]
    of that run reports it. *)
Theorem version_cache_set_once (env : gmap string string) (st : State)
    (r : request) (rs : list request) :
  REDIS_VERSION (startup env) = None
  /\ (exists v,
        cache (serve r st).2 = Some v
        /\ (r = GET_count -> ok (serve r st).1 ->
            redis_version (serve r st).1 = Some (JStr v))
        /\ (cache st = None ->
            match (Redis.info (conn_of st) st).1 with
            | inl i => v = default "unknown" (i !! "redis_version")
            | inr _ => v = "unknown"
            end)
        /\ cache (run rs (serve r st).2).2 = Some v
        /\ Forall2 (fun r' resp =>
                      r' = GET_count -> ok resp ->
                      redis_version resp = Some (JStr v))
             rs (run rs (serve r st).2).1).
Proof.
  split; [done|].
  destruct (serve_cache r st) as (Hget & [v Hv] & Hresp & _).
  exists v. split; [done|]. split.
  { intros Hr Hok. rewrite (Hresp Hr Hok). cbv zeta in Hv. by rewrite Hv. }
  split.
  { intros Hnone. pose proof (get_redis_first st Hnone) as Hf.
    cbv zeta in Hv, Hget. rewrite Hget in Hv.
    destruct (Redis.info _ _).1; congruence. }
  destruct (run_cached rs _ v Hv) as (? & _ & ?). done.
Qed.

Lemma version_cache_set_once_witness :
  let st := fresh [link_down; link_up; link_up] in
  cache (serve GET_count st).2 = Some "unknown"
  /\ redis_version (serve GET_count st).1 = Some (JStr "unknown")
  /\ cache (run [GET_count] (serve GET_count st).2).2 = Some "unknown".
Proof.
  destruct (version_cache_set_once ∅ (fresh [link_down; link_up; link_up])
              GET_count [GET_count])
    as (_ & v & Hv & Hresp & Hfirst & Hlater & _).
  specialize (Hfirst ltac:(reflexivity)).
  assert (v = "unknown") as -> by exact Hfirst.
  split; [exact Hv|]. split; [|exact Hlater].
  apply Hresp; [reflexivity | vm_compute; reflexivity].
Defined.

(** C3 as stated fails: the cache does not start as the string "unset";
    and after a [/ping] during which nothing could be fetched, a successful
    [/count] reports "unknown" although the server never ran INFO. *)
Lemma version_unset_counterexample :
  let st0 := fresh [link_down; link_down; link_up] in
  let out := run [GET_ping; GET_count] st0 in
  REDIS_VERSION (proc st0) <> Some "unset"
  /\ map status_code out.1 = [200; 200]%nat
  /\ executed (world out.2) = [CmdIncr "counter"]
  /\ map redis_version out.1 = [None; Some (JStr "unknown")]
  /\ Some (JStr "unknown") <> Some (JStr "unset").
Proof. vm_compute. repeat split; congruence. Qed.

(** C10. If the version fetch of a request fails, the cache holds
    "unknown" from then on: whatever the world becomes afterwards, no
    later request sends INFO again, the cache stays "unknown", and every
    successful [/count], this one included, reports "unknown". *)
Theorem version_unknown_forever (r : request) (st : State) (e : RedisError)
    (w : World) (rs : list request) :
  cache st = None ->
  (Redis.info (conn_of st) st).1 = inr e ->
  let st1 := (serve r st).2 in
  let later := run rs (set_world w st1) in
  cache st1 = Some "unknown"
  /\ (r = GET_count -> ok (serve r st).1 ->
      redis_version (serve r st).1 = Some (JStr "unknown"))
  /\ cache later.2 = Some "unknown"
  /\ (exists new, attempts (world later.2) = attempts w ++ new /\ CmdInfo ∉ new)
  /\ Forall2 (fun r' resp =>
                r' = GET_count -> ok resp ->
                redis_version resp = Some (JStr "unknown"))
       rs later.1.
Proof.
  intros Hnone Hfail. cbv zeta.
  pose proof (get_redis_first st Hnone) as Hf. rewrite Hfail in Hf.
  destruct (serve_cache r st) as (Hget & _ & Hresp & _). cbv zeta in *.
  rewrite Hf in Hget. split; [done|]. split.
  { intros Hr Hok. by rewrite (Hresp Hr Hok), Hget. }
  apply (run_cached rs (set_world w (serve r st).2) "unknown"). done.
Qed.

Lemma version_unknown_forever_witness :
  let st := fresh [link_down; link_up] in
  let later :=
    run [GET_count; GET_ping; GET_count]
        (set_world (fresh_world [link_up; link_up; link_up]) (serve GET_count st).2) in
  cache later.2 = Some "unknown"
  /\ map redis_version later.1
     = [Some (JStr "unknown"); None; Some (JStr "unknown")].
Proof.
  pose proof (version_unknown_forever GET_count (fresh [link_down; link_up])
                (ConnectionError (detail link_down))
                (fresh_world [link_up; link_up; link_up])
                [GET_count; GET_ping; GET_count]
                ltac:(reflexivity) ltac:(vm_compute; reflexivity))
    as (_ & _ & Hc & _ & _).
  split; [exact Hc | vm_compute; reflexivity].
Defined.

(** C4, as the code has it.  A failed version fetch is not fatal:
    [get_redis] still returns its connection, having logged one warning;
    [/ping] answers 200 and [/count] succeeds exactly when its increment
    does.  The cache does not stay at its default: it is set to
    "unknown". *)
Theorem version_fetch_failure_not_fatal (st : State) (e : RedisError) :
  cache st = None ->
  (Redis.info (conn_of st) st).1 = inr e ->
  (get_redis st).1 = inl (conn_of st)
  /\ logs (proc (get_redis st).2)
     = logs (proc st) ++ [mkLog WARNING "Could not fetch Redis version" None]
  /\ cache (get_redis st).2 = Some "unknown"
  /\ status_code (serve GET_ping st).1 = 200%nat
  /\ (status_code (serve GET_count st).1 = 200%nat
      <-> exists v, (Redis.incr (conn_of st) "counter" (get_redis st).2).1 = inl v).
Proof.
  intros Hnone Hfail. split; [apply get_redis_returns|]. split.
  { pose proof (roundtrip_frame (conn_of st) CmdInfo
                  (fun w => (inl (server_info w), w)) st
                  (store_only_const server_info)) as (Hp & _).
    fold (Redis.info (conn_of st)) in Hp.
    destruct (Redis.info (conn_of st) st) as [[i|e'] st1] eqn:Hi;
      simpl in Hfail, Hp; [done|].
    erewrite get_redis_fetch_failed by done. simpl. by rewrite Hp. }
  split.
  { pose proof (get_redis_first st Hnone) as Hf. by rewrite Hfail in Hf. }
  split.
  { destruct (ping_returns_200 st) as (resp & _ & -> & ->). done. }
  unfold serve, handler. rewrite count_eq.
  destruct (Redis.incr _ _ _) as [[v|e'] st2]; simpl; split; eauto;
    [done | by intros [? ?]].
Qed.

Lemma version_fetch_failure_not_fatal_witness :
  cache (get_redis (fresh [link_down; link_up])).2 = Some "unknown".
Proof.
  apply (version_fetch_failure_not_fatal (fresh [link_down; link_up])
           (ConnectionError (detail link_down))
           ltac:(reflexivity) ltac:(vm_compute; reflexivity)).
Defined.

(** C4 as stated fails: after a failed fetch the cache is "unknown", which
    is not the value it had by default. *)
Lemma version_fetch_failure_counterexample :
  let st0 := fresh [link_down; link_up] in
  cache st0 = REDIS_VERSION (startup ∅)
  /\ (Redis.info (conn_of st0) st0).1 = inr (ConnectionError (detail link_down))
  /\ cache (get_redis st0).2 = Some "unknown"
  /\ cache (get_redis st0).2 <> REDIS_VERSION (startup ∅).
Proof. vm_compute. repeat split; congruence. Qed.

(** ** [/count] while the store cannot be reached *)

Lemma serve_count_unreached st :
  reachable (conn_of st) (next_link (get_redis st).2) = false ->
  (serve GET_count st).1 = error_response
  /\ store (world (serve GET_count st).2) = store (world st).
Proof.
  intros Hdown.
  pose proof (roundtrip_unreached (conn_of st) (CmdIncr "counter")
                (server_incr "counter") (get_redis st).2 Hdown)
    as ([e He] & Hs & _).
  fold (Redis.incr (conn_of st) "counter") in He, Hs.
  rewrite (proj1 (proj2 (proj2 (get_redis_frame st)))) in Hs.
  unfold serve, handler. rewrite count_eq.
  destruct (Redis.incr _ _ _) as [[v|e'] st2]; simpl in *; done.
Qed.

Lemma outage_store st st' : outage st st' -> store (world st') = store (world st).
Proof.
  induction 1 as [st|st st' _ IH|st st' Hdown _ IH]; [done|..].
  - rewrite IH. apply serve_ping_counter.
  - rewrite IH. by apply serve_count_unreached.
Qed.

(** C7. A [/count] whose increment finds the store unreachable answers
    503 and leaves the stored counter as it was; however long the outage
    lasts, the next successful [/count] returns the value from before the
    failed request plus one. *)
Theorem failed_count_does_not_count (st st' : State) :
  reachable (conn_of st) (next_link (get_redis st).2) = false ->
  outage (serve GET_count st).2 st' ->
  status_code (serve GET_count st).1 = 503%nat
  /\ store (world (serve GET_count st).2) = store (world st)
  /\ store (world st') = store (world st)
  /\ (ok (serve GET_count st').1 ->
      visit_count (serve GET_count st').1 = Some (counter_value st + 1)).
Proof.
  intros Hfail Hout.
  destruct (serve_count_unreached st Hfail) as [Hresp Hs].
  pose proof (outage_store _ _ Hout) as Hs'. rewrite Hs in Hs'.
  rewrite Hresp. do 3 (split; [done|]). intros Hok.
  destruct (serve_count_ok st' Hok) as [-> _].
  unfold counter_value. by rewrite Hs'.
Qed.

Lemma failed_count_does_not_count_witness :
  let st := fresh [link_up; link_down; link_down; link_up] in
  let st' := (serve GET_ping (serve GET_count st).2).2 in
  store (world st') = store (world st)
  /\ visit_count (serve GET_count st').1 = Some 1.
Proof.
  pose proof (failed_count_does_not_count
                (fresh [link_up; link_down; link_down; link_up])
                (serve GET_ping
                   (serve GET_count
                      (fresh [link_up; link_down; link_down; link_up])).2).2
                ltac:(vm_compute; reflexivity)
                ltac:(apply outage_ping, outage_none))
    as (_ & _ & Hs & Hnext).
  split; [exact Hs | apply Hnext; vm_compute; reflexivity].
Defined.

(** For comparison: an increment whose reply is lost was run by the
    server.  The request answers 503 and the counter has moved. *)
Example lost_reply_counts :
  let st := fresh [link_up; mkLink (Reached 0) Never ""] in
  (serve GET_count st).1 = error_response
  /\ counter_value (serve GET_count st).2 = 1.
Proof. vm_compute. split; reflexivity. Qed.

(** ** Error detail stays out of the responses

    Two executions are compared whose worlds agree on everything except
    the text of the errors the network produces (and whose logs may
    differ).  Every program of the service maps such a pair of states to
    equal results and to such a pair of states again. *)

Section ErrorDetail.

Lemma msim_ret {A} (a : A) : msim (ret a) (ret a).
Proof. by intros st1 st2 H. Qed.

Lemma msim_bind {A B} (m1 m2 : M A) (k1 k2 : A -> M B) :
  msim m1 m2 -> (forall a, msim (k1 a) (k2 a)) ->
  msim (bind m1 k1) (bind m2 k2).
Proof.
  intros Hm Hk st1 st2 H. unfold bind. destruct (Hm _ _ H) as [Hr Hs].
  destruct (m1 st1) as [[a1|e1] st1'], (m2 st2) as [[a2|e2] st2'];
    simpl in *; try done.
  subst. by apply Hk.
Qed.

Lemma msim_try {A} (m1 m2 : M A) (h1 h2 : RedisError -> M A) :
  msim m1 m2 -> (forall e1 e2, msim (h1 e1) (h2 e2)) ->
  msim (try_except m1 h1) (try_except m2 h2).
Proof.
  intros Hm Hh st1 st2 H. unfold try_except. destruct (Hm _ _ H) as [Hr Hs].
  destruct (m1 st1) as [[a1|e1] st1'], (m2 st2) as [[a2|e2] st2'];
    simpl in *; try done.
  by apply Hh.
Qed.

Lemma msim_gets {A} (f : State -> A) :
  (forall st1 st2, state_sim st1 st2 -> f st1 = f st2) ->
  msim (gets f) (gets f).
Proof. intros Hf st1 st2 H. simpl. split; [by apply Hf | done]. Qed.

Lemma msim_log l1 m1 x1 l2 m2 x2 :
  msim (logger_log l1 m1 x1) (logger_log l2 m2 x2).
Proof. intros st1 st2 H. simpl. split; [done|]. apply H. Qed.

Lemma msim_set_version v :
  msim (modify (set_REDIS_VERSION v)) (modify (set_REDIS_VERSION v)).
Proof.
  intros st1 st2 [(He & Hp & _) Hw]. simpl. split; [done|].
  split; [|exact Hw]. split; [exact He|]. split; [exact Hp|done].
Qed.

Lemma srv_sim_info : srv_sim (fun w => (inl (server_info w), w)).
Proof. intros w1 w2 H. simpl. split; [|done]. f_equal. apply H. Qed.

Lemma srv_sim_ping : srv_sim (fun w => (inl true, w)).
Proof. by intros w1 w2 H. Qed.

Lemma srv_sim_incr key : srv_sim (server_incr key).
Proof.
  intros w1 w2 (Hs & Hi & Hn & Hl). unfold server_incr. rewrite Hs.
  case_match; simpl; by repeat split.
Qed.

Lemma dial_sim l1 l2 lim :
  link_sim l1 l2 ->
  match dial l1 lim, dial l2 lim with
  | inl d1, inl d2 => d1 = d2
  | inr (d1, _), inr (d2, _) => d1 = d2
  | _, _ => False
  end.
Proof.
  intros [Hc _]. unfold dial. rewrite Hc.
  destruct (connect l2) as [ns| |]; [|done..].
  by destruct (ns <=? _)%N.
Qed.

Lemma msim_roundtrip {A} conn c (srv : World -> (A + string) * World) :
  srv_sim srv -> msim (roundtrip conn c srv) (roundtrip conn c srv).
Proof.
  intros Hsrv st1 st2 [Hp (Hs & Hi & Hn & Hl)].
  unfold roundtrip, take_link.
  assert (Hhd : link_sim (hd link_down (net (world st1)))
                         (hd link_down (net (world st2))))
    by (destruct Hl; by simpl).
  assert (Htl : Forall2 link_sim (tl (net (world st1))) (tl (net (world st2))))
    by (destruct Hl; [constructor | done]).
  pose proof (dial_sim _ _ (socket_connect_timeout (connection_pool conn)) Hhd)
    as Hdial.
  destruct Hhd as [_ Hanswer].
  destruct (dial (hd link_down (net (world st1))) _) as [dc|[d1 e1]],
           (dial (hd link_down (net (world st2))) _) as [dc'|[d2 e2]];
    try done; subst.
  - match goal with
    | |- context [srv ?w1] =>
        match goal with
        | |- context [srv ?w2] =>
            assert_fails (constr_eq w1 w2);
            destruct (Hsrv w1 w2) as [Hr Hw]
        end
    end.
    { unfold ran, tick. simpl. rewrite Hn. by repeat split. }
    destruct (srv _) as [r1 w1], (srv _) as [r2 w2]. simpl in Hr, Hw.
    subst r2. destruct Hw as (Hs' & Hi' & Hn' & Hl'). rewrite Hanswer.
    destruct (within (answer _) _) as [da|].
    + destruct r1; simpl; (split; [done|]); split; [done| |done|];
        unfold tick; simpl; rewrite ?Hn'; by repeat split.
    + simpl. split; [done|]. split; [done|].
      unfold tick. simpl. rewrite Hn'. by repeat split.
  - simpl. split; [done|]. split; [done|].
    unfold tick. simpl. rewrite Hn. by repeat split.
Qed.

Lemma msim_get_redis : msim get_redis get_redis.
Proof.
  unfold get_redis.
  apply msim_bind; [apply msim_gets; intros ?? H; apply H|]. intros pool.
  apply msim_bind; [apply msim_gets; intros ?? H; apply H|]. intros cached.
  apply msim_bind; [|intros; apply msim_ret].
  destruct cached; [apply msim_ret|].
  apply msim_try.
  - apply msim_bind; [apply msim_roundtrip, srv_sim_info|]. intros i.
    apply msim_bind; [apply msim_set_version|]. intros _. apply msim_log.
  - intros e1 e2. apply msim_bind; [apply msim_log|]. intros _.
    apply msim_set_version.
Qed.

Lemma msim_perf_counter : msim perf_counter perf_counter.
Proof.
  apply msim_gets. intros st1 st2 (_ & _ & _ & Hn & _). by rewrite Hn.
Qed.

Lemma msim_ping : msim ping ping.
Proof.
  unfold ping.
  apply msim_bind; [apply msim_perf_counter|]. intros t0.
  apply msim_bind.
  { apply msim_gets. intros st1 st2 ((He & _) & _). by rewrite He. }
  intros env. apply msim_bind.
  - apply msim_try.
    + apply msim_bind; [apply msim_get_redis|]. intros conn.
      apply msim_bind; [apply msim_roundtrip, srv_sim_ping|]. intros _.
      apply msim_ret.
    + intros e1 e2. apply msim_bind; [apply msim_log|]. intros _.
      apply msim_ret.
  - intros response.
    apply msim_bind; [apply msim_perf_counter|]. intros t1. apply msim_ret.
Qed.

Lemma msim_count : msim count count.
Proof.
  unfold count, count_try. apply msim_try.
  - apply msim_bind; [apply msim_get_redis|]. intros conn.
    apply msim_bind; [apply msim_roundtrip, srv_sim_incr|]. intros visits.
    apply msim_bind; [apply msim_log|]. intros _.
    apply msim_bind; [apply msim_gets; intros ?? H; apply H|]. intros v.
    apply msim_ret.
  - intros e1 e2. apply msim_bind; [apply msim_log|]. intros _.
    apply msim_ret.
Qed.

Lemma serve_sim r st1 st2 :
  state_sim st1 st2 ->
  (serve r st1).1 = (serve r st2).1
  /\ state_sim (serve r st1).2 (serve r st2).2.
Proof.
  intros H. unfold serve.
  assert (Hm : msim (handler r) (handler r))
    by (destruct r; [apply msim_ping | apply msim_count]).
  destruct (Hm _ _ H) as [Hr Hs].
  destruct (handler r st1) as [[a1|e1] st1'], (handler r st2) as [[a2|e2] st2'];
    simpl in *; done.
Qed.

Lemma run_sim rs st1 st2 :
  state_sim st1 st2 ->
  (run rs st1).1 = (run rs st2).1
  /\ state_sim (run rs st1).2 (run rs st2).2.
Proof.
  revert st1 st2. induction rs as [|r rs IH]; intros st1 st2 H; [done|].
  rewrite !run_cons. cbn [fst snd].
  destruct (serve_sim r _ _ H) as [-> Hs].
  destruct (IH _ _ Hs) as [-> Hs']. done.
Qed.

End ErrorDetail.

(** C9. Two backend failures with different messages get the same fixed
    503 response from [/count]; the message goes to the log.  More
    generally, two runs that differ only in the text of the errors the
    network produces send the same responses, byte for byte, on both
    routes. *)
Theorem error_detail_not_in_responses (st1 st2 : State) (e1 e2 : RedisError)
    (rs : list request) (sa sb : State) :
  (Redis.incr (conn_of st1) "counter" (get_redis st1).2).1 = inr e1 ->
  (Redis.incr (conn_of st2) "counter" (get_redis st2).2).1 = inr e2 ->
  state_sim sa sb ->
  (serve GET_count st1).1 = (serve GET_count st2).1
  /\ (serve GET_count st1).1 = mkResponse 503 error_body
  /\ last (logs (proc (serve GET_count st1).2))
     = Some (mkLog ERROR "Redis operation failed" (Some (error_payload e1)))
  /\ (run rs sa).1 = (run rs sb).1.
Proof.
  intros H1 H2 Hsim.
  assert (Hfix : forall st e,
            (Redis.incr (conn_of st) "counter" (get_redis st).2).1 = inr e ->
            (serve GET_count st).1 = error_response
            /\ last (logs (proc (serve GET_count st).2))
               = Some (count_failed_record e)).
  { clear. intros st e He. unfold serve, handler. rewrite count_eq.
    destruct (Redis.incr _ _ _) as [[v|e'] st2]; simpl in *; [done|].
    simplify_eq. split; [done|]. apply last_snoc. }
  destruct (Hfix _ _ H1) as [-> Hlog], (Hfix _ _ H2) as [-> _].
  do 2 (split; [done|]). split; [exact Hlog|].
  by apply run_sim.
Qed.

Lemma error_detail_not_in_responses_witness :
  let st1 := fresh [link_up; link_down] in
  let st2 := fresh [link_up; mkLink Silent (After 5) ""] in
  let sa := fresh [link_down;
                   mkLink Refused (After 7) "Error 104 connecting to redis:6379. Connection reset by peer.";
                   link_up] in
  let sb := fresh [mkLink Refused Never "Error 113 connecting to redis:6379. No route to host.";
                   mkLink Refused (After 7) "Error -2 connecting to redis:6379. Name or service not known.";
                   link_up] in
  (serve GET_count st1).1 = (serve GET_count st2).1
  /\ (run [GET_ping; GET_count] sa).1 = (run [GET_ping; GET_count] sb).1
  /\ logs (proc (run [GET_ping; GET_count] sa).2)
     <> logs (proc (run [GET_ping; GET_count] sb).2).
Proof.
  pose proof (error_detail_not_in_responses
                (fresh [link_up; link_down])
                (fresh [link_up; mkLink Silent (After 5) ""])
                (ConnectionError (detail link_down))
                (TimeoutError "Timeout connecting to server")
                [GET_ping; GET_count]
                (fresh [link_down;
                        mkLink Refused (After 7) "Error 104 connecting to redis:6379. Connection reset by peer.";
                        link_up])
                (fresh [mkLink Refused Never "Error 113 connecting to redis:6379. No route to host.";
                        mkLink Refused (After 7) "Error -2 connecting to redis:6379. Name or service not known.";
                        link_up])
                ltac:(vm_compute; reflexivity)
                ltac:(vm_compute; reflexivity)
                ltac:(repeat (split || constructor)))
    as (Hsame & _ & _ & Hrun).
  split; [exact Hsame|]. split; [exact Hrun|].
  vm_compute. congruence.
Defined.

(** * Further properties *)

(** ** The log format *)

Example parse_LOG_FORMAT :
  parse_percent (InText "") LOG_FORMAT
  = Some [ Lit ("{" +:+ nl +:+ "        " +:+ quoted "timestamp" +:+ ": " +:+ dq);
           Field "asctime";
           Lit (dq +:+ "," +:+ nl +:+ "        " +:+ quoted "service" +:+ ": "
                +:+ quoted "visit-counter" +:+ "," +:+ nl +:+ "        "
                +:+ quoted "level" +:+ ": " +:+ dq);
           Field "levelname";
           Lit (dq +:+ "," +:+ nl +:+ "        " +:+ quoted "thread" +:+ ": " +:+ dq);
           Field "threadName";
           Lit (dq +:+ "," +:+ nl +:+ "        " +:+ quoted "message" +:+ ": " +:+ dq);
           Field "message";
           Lit (dq +:+ "," +:+ nl +:+ "        " +:+ quoted "context" +:+ ": ");
           Field "custom_data";
           Lit (nl +:+ "    }") ].
Proof. vm_compute. reflexivity. Qed.

Section LogFormat.

Variables asctime threadName : string.

Lemma record_dict_lookup (r : LogRecord) :
  record_dict asctime threadName r !! "asctime" = Some asctime
  /\ record_dict asctime threadName r !! "levelname" = Some (level_name (levelname r))
  /\ record_dict asctime threadName r !! "threadName" = Some threadName
  /\ record_dict asctime threadName r !! "message" = Some (message r)
  /\ record_dict asctime threadName r !! "custom_data" = custom_data r.
Proof.
  unfold record_dict. destruct (custom_data r) as [c|];
    repeat split; by simplify_map_eq.
Qed.

Lemma string_app_assoc (a b c : string) : (a +:+ b) +:+ c = a +:+ (b +:+ c).
Proof.
  induction a as [|x a IH]; [reflexivity|].
  change (String x ((a +:+ b) +:+ c) = String x (a +:+ (b +:+ c))).
  by rewrite IH.
Qed.

Lemma format_LOG_FORMAT (r : LogRecord) :
  Formatter_format LOG_FORMAT asctime threadName r
  = Some (match custom_data r with
          | Some c =>
              inl (log_line asctime (level_name (levelname r)) threadName
                     (message r) c)
          | None => inr "custom_data"
          end).
Proof.
  unfold Formatter_format. rewrite parse_LOG_FORMAT. cbn [mbind option_bind].
  destruct (record_dict_lookup r) as (Ha & Hl & Ht & Hm & Hc).
  cbn [render]. rewrite Ha, Hl, Ht, Hm, Hc.
  destruct (custom_data r) as [c|]; [|done].
  do 2 f_equal. unfold log_line, quoted.
  rewrite !string_app_assoc. reflexivity.
Qed.

(** X1 (log format).  Under the format of [basicConfig] the handler
    writes a line in the configured format exactly when the call passed
    [custom_data] in [extra]; the line then holds the payload as it is,
    unquoted, after the [context] key.  For a record without it the
    formatting raises for the key [custom_data]: no such line is produced,
    and the handler reports a logging error for the record instead. *)
Theorem basic_format_needs_custom_data (r : LogRecord) :
  StreamHandler_emit asctime threadName r
  = Some (match custom_data r with
          | Some c =>
              Written (log_line asctime (level_name (levelname r)) threadName
                         (message r) c)
          | None => Reported "custom_data" (message r)
          end)
  /\ (is_Some (emit asctime threadName r) <-> is_Some (custom_data r))
  /\ Formatter_format LOG_FORMAT asctime threadName r
     = Some (match custom_data r with
             | Some c =>
                 inl (log_line asctime (level_name (levelname r)) threadName
                        (message r) c)
             | None => inr "custom_data"
             end).
Proof.
  split; [|split; [|apply format_LOG_FORMAT]].
  - unfold StreamHandler_emit. rewrite format_LOG_FORMAT.
    by destruct (custom_data r).
  - unfold emit. rewrite format_LOG_FORMAT.
    destruct (custom_data r); split; intros [? ?]; done || eauto.
Qed.

(** X2 (ServiceContextFormatter).  The formatter of lines 39-42 never
    fails on the service's format, but it overwrites [custom_data] before
    formatting: the line always shows the empty context, the record is
    left with [custom_data = '{}'], and whatever payload the call passed
    in [extra] is lost, for any format string. *)
Theorem service_context_formatter_drops_payload (fmt : string)
    (r r' : LogRecord) :
  levelname r = levelname r' ->
  message r = message r' ->
  ServiceContextFormatter_format fmt asctime threadName r
  = ServiceContextFormatter_format fmt asctime threadName r'
  /\ custom_data (ServiceContextFormatter_format fmt asctime threadName r).2
     = Some "{}"
  /\ (ServiceContextFormatter_format LOG_FORMAT asctime threadName r).1
     = Some (inl (log_line asctime (level_name (levelname r)) threadName
                    (message r) "{}")).
Proof.
  intros Hl Hm. unfold ServiceContextFormatter_format. rewrite Hl, Hm.
  split; [done|]. split; [done|]. cbn [fst].
  by rewrite format_LOG_FORMAT.
Qed.

Lemma emit_spec (r : LogRecord) :
  emit asctime threadName r
  = (fun c => log_line asctime (level_name (levelname r)) threadName
                (message r) c) <$> custom_data r.
Proof.
  unfold emit. rewrite format_LOG_FORMAT.
  by destruct (custom_data r).
Qed.

(** Of the records the service logs, only the fetch warning is passed
    without [extra]. *)
Lemma app_record_emit (r : LogRecord) :
  app_record r -> (emit asctime threadName r = None <-> r = fetch_warning).
Proof.
  intros Hr. rewrite emit_spec. destruct Hr; simpl; split; done.
Qed.

End LogFormat.

Lemma service_context_formatter_drops_payload_witness :
  ServiceContextFormatter_format LOG_FORMAT "2026-01-01T00:00:00Z" "MainThread"
    (visit_record 7)
  = ServiceContextFormatter_format LOG_FORMAT "2026-01-01T00:00:00Z" "MainThread"
      (mkLog INFO "Visit recorded" None).
Proof.
  apply (service_context_formatter_drops_payload
           "2026-01-01T00:00:00Z" "MainThread" LOG_FORMAT
           (visit_record 7) (mkLog INFO "Visit recorded" None)
           ltac:(reflexivity) ltac:(reflexivity)).
Defined.

(** ** What a request appends to the log *)

Lemma get_redis_logs st :
  exists new,
    logs (proc (get_redis st).2) = logs (proc st) ++ new
    /\ Forall app_record new
    /\ (is_Some (cache st) -> new = []).
Proof.
  destruct (REDIS_VERSION (proc st)) as [v|] eqn:H.
  - erewrite get_redis_cached by done. exists []. rewrite app_nil_r. done.
  - pose proof (roundtrip_frame (conn_of st) CmdInfo
                  (fun w => (inl (server_info w), w)) st
                  (store_only_const server_info)) as (Hp & _).
    fold (Redis.info (conn_of st)) in Hp.
    assert (Hno : is_Some (cache st) -> forall l : list LogRecord, l = [])
      by (unfold cache; rewrite H; by intros [? ?]).
    destruct (Redis.info (conn_of st) st) as [[i|e] st1] eqn:Hinfo; simpl in Hp.
    + erewrite get_redis_fetched by done. simpl. rewrite Hp.
      eexists. split; [done|]. split; [|by auto].
      repeat constructor.
    + erewrite get_redis_fetch_failed by done. simpl. rewrite Hp.
      eexists. split; [done|]. split; [|by auto].
      repeat constructor.
Qed.

Lemma serve_logs r st :
  exists new,
    logs (proc (serve r st).2) = logs (proc st) ++ new /\ Forall app_record new.
Proof.
  destruct (get_redis_logs st) as (new & Hnew & Hall & _).
  destruct r; unfold serve, handler.
  - pose proof (redis_ping_frame (conn_of st) (get_redis st).2) as (Hp & _).
    rewrite ping_eq.
    destruct (Redis.ping _ _) as [[b|e] st2]; simpl in *; rewrite Hp, Hnew.
    + by exists new.
    + exists (new ++ [ping_failed_record e]). rewrite app_assoc.
      split; [done|]. apply Forall_app. split; [done|]. repeat constructor.
  - pose proof (redis_incr_frame (conn_of st) "counter" (get_redis st).2)
      as (Hp & _).
    rewrite count_eq.
    destruct (Redis.incr _ _ _) as [[v|e] st2]; simpl in *; rewrite Hp, Hnew.
    + exists (new ++ [visit_record v]). rewrite app_assoc.
      split; [done|]. apply Forall_app. split; [done|]. repeat constructor.
    + exists (new ++ [count_failed_record e]). rewrite app_assoc.
      split; [done|]. apply Forall_app. split; [done|]. repeat constructor.
Qed.

(** X3 (what reaches the log output).  The log only grows, by records of
    the five kinds the service writes; and under the format of
    [basicConfig] every one of them is formatted except the warning of a
    failed version fetch, which is passed without [extra] and so is never
    written in the configured format. *)
Theorem only_fetch_warning_is_not_written (asctime threadName : string)
    (rs : list request) (st : State) :
  exists new,
    logs (proc (run rs st).2) = logs (proc st) ++ new
    /\ Forall (fun r => app_record r
                        /\ (emit asctime threadName r = None
                            <-> r = mkLog WARNING "Could not fetch Redis version" None))
         new.
Proof.
  revert st. induction rs as [|r rs IH]; intros st.
  - exists []. simpl. by rewrite app_nil_r.
  - rewrite run_cons. cbn [snd].
    destruct (serve_logs r st) as (new1 & H1 & Hall1).
    destruct (IH (serve r st).2) as (new2 & H2 & Hall2).
    exists (new1 ++ new2). rewrite H2, H1, app_assoc. split; [done|].
    apply Forall_app. split; [|done].
    eapply Forall_impl; [exact Hall1|]. intros rec Hrec. split; [done|].
    by apply app_record_emit.
Qed.

(** ** What a run does to the store *)

Lemma incr_store_cases conn st :
  let st' := (Redis.incr conn "counter" st).2 in
  store (world st') = store (world st)
  \/ (counter_value st < int64_max
      /\ store (world st') = <["counter" := counter_value st + 1]> (store (world st))).
Proof.
  unfold Redis.incr, roundtrip, take_link, server_incr, counter_value. simpl.
  destruct (dial _ _) as [dc|[d e]]; simpl; [|by left].
  destruct (_ <? int64_max) eqn:Hlt; simpl.
  - right. apply Z.ltb_lt in Hlt.
    destruct (within _ _); simpl; done.
  - left. destruct (within _ _); simpl; done.
Qed.

Lemma serve_store r st :
  store (world (serve r st).2) = store (world st)
  \/ (r = GET_count
      /\ counter_value st < int64_max
      /\ store (world (serve r st).2)
         = <["counter" := counter_value st + 1]> (store (world st))).
Proof.
  destruct r; [left; apply serve_ping_counter|].
  pose proof (incr_store_cases (conn_of st) (get_redis st).2) as Hi.
  cbv zeta in Hi. rewrite counter_value_get_redis in Hi.
  rewrite (proj1 (proj2 (proj2 (get_redis_frame st)))) in Hi.
  unfold serve, handler. rewrite count_eq.
  destruct (Redis.incr _ _ _) as [[v|e] st2]; simpl in *;
    (destruct Hi as [Hi|[Hlt Hi]]; [by left | by right]).
Qed.

Lemma serve_counter r st :
  counter_value (serve r st).2 = counter_value st
  \/ (r = GET_count /\ counter_value (serve r st).2 = counter_value st + 1).
Proof.
  unfold counter_value at 1 3.
  destruct (serve_store r st) as [->|(Hr & _ & ->)]; [by left|].
  right. by rewrite lookup_insert_eq.
Qed.

Lemma count_requests_cons r rs :
  Z.of_nat (length (filter is_count (r :: rs)))
  = (if is_count r then 1 else 0) + Z.of_nat (length (filter is_count rs)).
Proof.
  destruct r.
  - done.
  - change (filter is_count (GET_count :: rs))
      with (GET_count :: filter is_count rs).
    cbn [length is_count]. lia.
Qed.

Lemma run_counter_mono rs st :
  counter_value st <= counter_value (run rs st).2.
Proof.
  revert st. induction rs as [|r rs IH]; intros st; [simpl; lia|].
  rewrite run_cons. cbn [snd]. specialize (IH (serve r st).2).
  destruct (serve_counter r st) as [Hc|[_ Hc]]; lia.
Qed.

(** X4 (counter bounds).  Over any run, whatever fails on the way, the
    stored counter never goes down and goes up by at most one per [/count]
    request; a run of [/ping] requests alone leaves it where it was. *)
Theorem counter_moves_only_up (rs : list request) (st : State) :
  counter_value st <= counter_value (run rs st).2
  /\ counter_value (run rs st).2
     <= counter_value st + Z.of_nat (length (filter is_count rs)).
Proof.
  revert st. induction rs as [|r rs IH]; intros st; [simpl; lia|].
  rewrite run_cons, count_requests_cons. cbn [snd].
  specialize (IH (serve r st).2).
  destruct (serve_counter r st) as [Hc|[-> Hc]]; rewrite Hc in IH.
  - destruct r; simpl; lia.
  - simpl. lia.
Qed.

(** X5 (one key).  The service writes the key [counter] and no other: any
    other key of the store has the same value, or the same absence, after
    any run. *)
Theorem other_keys_untouched (rs : list request) (st : State) (k : string) :
  k <> "counter" ->
  store (world (run rs st).2) !! k = store (world st) !! k.
Proof.
  intros Hk. revert st. induction rs as [|r rs IH]; intros st; [done|].
  rewrite run_cons. cbn [snd]. rewrite IH.
  destruct (serve_store r st) as [->|(_ & _ & ->)]; [done|].
  by rewrite lookup_insert_ne.
Qed.

Lemma other_keys_untouched_witness :
  let st := mkState (startup ∅)
              (mkWorld {[ "sessions" := 3 ]} ∅ 0 [link_up; link_up; link_down] [] []) in
  store (world (run [GET_count; GET_ping; GET_count] st).2) !! "sessions" = Some 3.
Proof.
  etransitivity.
  - apply (other_keys_untouched [GET_count; GET_ping; GET_count]
             (mkState (startup ∅)
                (mkWorld {[ "sessions" := 3 ]} ∅ 0
                   [link_up; link_up; link_down] [] []))
             "sessions").
    vm_compute. congruence.
  - reflexivity.
Defined.

Lemma serve_visit r st v :
  visit_count (serve r st).1 = Some v ->
  v = counter_value st + 1 /\ counter_value (serve r st).2 = v.
Proof.
  destruct r.
  - by rewrite (proj1 (serve_ping_counter st)).
  - intros Hv.
    assert (Hok : ok (serve GET_count st).1).
    { revert Hv. unfold serve, handler, ok. rewrite count_eq.
      by destruct (Redis.incr _ _ _) as [[n|e] st2]. }
    destruct (serve_count_ok st Hok) as [Hv' Hc]. rewrite Hv' in Hv.
    by simplify_eq.
Qed.

(** X6 (visit counts, failures included).  In any run, with failed
    requests, lost replies and [/ping] requests mixed in, the
    [visit_count] values that are returned are strictly increasing: no
    value is returned twice.  Each lies above the counter the run started
    from and not above the counter it ends with. *)
Theorem visit_counts_strictly_increase (rs : list request) (st : State) :
  StronglySorted Z.lt (omap visit_count (run rs st).1)
  /\ Forall (fun v => counter_value st < v <= counter_value (run rs st).2)
       (omap visit_count (run rs st).1).
Proof.
  revert st. induction rs as [|r rs IH]; intros st.
  - simpl. split; constructor.
  - rewrite run_cons. cbn [fst snd]. rewrite omap_step.
    destruct (IH (serve r st).2) as [Hsorted Hall].
    pose proof (run_counter_mono rs (serve r st).2) as Hup.
    destruct (visit_count (serve r st).1) as [v|] eqn:Hv.
    + destruct (serve_visit r st v Hv) as [-> Hc]. rewrite Hc in Hall, Hup.
      split.
      * constructor; [done|]. eapply Forall_impl; [exact Hall|].
        intros w Hw. simpl in Hw. lia.
      * constructor; [lia|]. eapply Forall_impl; [exact Hall|].
        intros w Hw. simpl in Hw. lia.
    + split; [done|]. eapply Forall_impl; [exact Hall|].
      intros w Hw. simpl in Hw.
      destruct (serve_counter r st) as [Hc|[_ Hc]]; lia.
Qed.

(** ** The commands a run sends *)

Lemma get_redis_attempts st :
  attempts (world (get_redis st).2)
  = attempts (world st)
    ++ match cache st with
       | None => [CmdInfo]
       | Some _ => []
       end.
Proof.
  unfold cache. destruct (REDIS_VERSION (proc st)) as [v|] eqn:H.
  - erewrite get_redis_cached by done. by rewrite app_nil_r.
  - pose proof (roundtrip_frame (conn_of st) CmdInfo
                  (fun w => (inl (server_info w), w)) st
                  (store_only_const server_info)) as (_ & _ & _ & Ha & _).
    fold (Redis.info (conn_of st)) in Ha.
    destruct (Redis.info (conn_of st) st) as [[i|e] st1] eqn:Hinfo; simpl in Ha.
    + erewrite get_redis_fetched by done. exact Ha.
    + erewrite get_redis_fetch_failed by done. exact Ha.
Qed.

Lemma serve_attempts r st :
  attempts (world (serve r st).2)
  = attempts (world st)
    ++ match cache st with
       | None => [CmdInfo]
       | Some _ => []
       end
    ++ [command_of r].
Proof.
  rewrite app_assoc, <- get_redis_attempts.
  destruct r; unfold serve, handler.
  - pose proof (redis_ping_frame (conn_of st) (get_redis st).2)
      as (_ & _ & _ & Ha & _).
    rewrite ping_eq. by destruct (Redis.ping _ _) as [[b|e] st2].
  - pose proof (redis_incr_frame (conn_of st) "counter" (get_redis st).2)
      as (_ & _ & _ & Ha & _).
    rewrite count_eq. by destruct (Redis.incr _ _ _) as [[v|e] st2].
Qed.

(** X7 (commands sent).  A run sends exactly one command per request, in
    order: PING for [/ping], INCR counter for [/count], whether or not
    earlier requests failed; nothing is retried and nothing is skipped.
    The only other command is one INFO, sent before the first of them when
    the process has not yet filled its version cache. *)
Theorem commands_sent (rs : list request) (st : State) :
  attempts (world (run rs st).2)
  = attempts (world st)
    ++ match cache st, rs with
       | None, _ :: _ => [CmdInfo]
       | _, _ => []
       end
    ++ map command_of rs.
Proof.
  revert st. induction rs as [|r rs IH]; intros st.
  - simpl. destruct (cache st); by rewrite app_nil_r.
  - rewrite run_cons. cbn [snd]. rewrite IH, serve_attempts.
    destruct (serve_cache r st) as (_ & [v Hv] & _). cbv zeta in Hv. rewrite Hv.
    destruct (cache st); destruct rs; simpl; by rewrite <- ?app_assoc.
Qed.

(** ** The responses of a run *)

Lemma serve_environ r st : environ (proc (serve r st).2) = environ (proc st).
Proof.
  pose proof (get_redis_frame st) as (Henv & _).
  destruct r; unfold serve, handler.
  - pose proof (redis_ping_frame (conn_of st) (get_redis st).2) as (Hp & _).
    rewrite ping_eq.
    destruct (Redis.ping _ _) as [[b|e] st2]; simpl in *; by rewrite Hp.
  - pose proof (redis_incr_frame (conn_of st) "counter" (get_redis st).2)
      as (Hp & _).
    rewrite count_eq.
    destruct (Redis.incr _ _ _) as [[v|e] st2]; simpl in *; by rewrite Hp.
Qed.

(** X8 (responses of a run).  Every response of every run is one of three:
    [/ping] gets 200 with the five-field body, whose [environment] is the
    same in all of them (the handlers never write the environment);
    [/count] gets either 200 with a count and a version string, or the
    fixed 503.  The 500 that Flask would make of an escaping exception
    never occurs. *)
Theorem responses_of_a_run (rs : list request) (st : State) :
  Forall2 (fun r resp =>
             match r with
             | GET_ping =>
                 exists connected ms,
                   resp = mkResponse 200
                            (ping_body
                               (default "development"
                                  (environ (proc st) !! "FLASK_ENV"))
                               connected ms)
             | GET_count =>
                 (exists visits version,
                    resp = mkResponse 200 (count_body visits (Some version)))
                 \/ resp = mkResponse 503 error_body
             end)
    rs (run rs st).1.
Proof.
  remember (environ (proc st)) as env eqn:Henv.
  revert st Henv. induction rs as [|r rs IH]; intros st Henv; [constructor|].
  rewrite run_cons. cbn [fst]. constructor.
  - subst env. destruct r; unfold serve, handler.
    + rewrite ping_eq.
      destruct (Redis.ping _ _) as [[b|e] st2]; simpl; eauto.
    + pose proof (redis_incr_frame (conn_of st) "counter" (get_redis st).2)
        as (Hp & _).
      pose proof (get_redis_frame st) as (_ & _ & _ & _ & [v Hv]).
      rewrite count_eq.
      destruct (Redis.incr _ _ _) as [[n|e] st2]; simpl in *; [|by right].
      left. exists n, v. by rewrite Hp, Hv.
  - apply IH. by rewrite serve_environ.
Qed.

(** ** What each handler logs *)

(** X9 (log and response agree).  After [get_redis] has done its part, a
    handler logs exactly this: [/count] one INFO record carrying the count
    it returns, or one ERROR record carrying the text of the exception
    when it answers 503; [/ping] nothing when it reports the store
    connected, and one ERROR record with the text of the exception when it
    does not. *)
Theorem handlers_log_their_outcome (st : State) :
  let base := logs (proc (get_redis st).2) in
  (forall v,
     visit_count (serve GET_count st).1 = Some v ->
     logs (proc (serve GET_count st).2)
     = base ++ [mkLog INFO "Visit recorded"
                  (Some ("{" +:+ dq +:+ "visit_count" +:+ dq +:+ ": "
                         +:+ pretty v +:+ "}"))])
  /\ (status_code (serve GET_count st).1 = 503%nat ->
      exists e,
        (Redis.incr (conn_of st) "counter" (get_redis st).2).1 = inr e
        /\ logs (proc (serve GET_count st).2)
           = base ++ [mkLog ERROR "Redis operation failed"
                        (Some (error_payload e))])
  /\ (dict_get "redis_connected" (body (serve GET_ping st).1) = Some (JBool true) ->
      logs (proc (serve GET_ping st).2) = base)
  /\ (dict_get "redis_connected" (body (serve GET_ping st).1) = Some (JBool false) ->
      exists e,
        (Redis.ping (conn_of st) (get_redis st).2).1 = inr e
        /\ logs (proc (serve GET_ping st).2)
           = base ++ [mkLog ERROR "Redis ping failed" (Some (error_payload e))]).
Proof.
  cbv zeta.
  pose proof (redis_incr_frame (conn_of st) "counter" (get_redis st).2)
    as (Hi & _).
  pose proof (redis_ping_frame (conn_of st) (get_redis st).2) as (Hp & _).
  unfold serve, handler. rewrite count_eq, ping_eq.
  destruct (Redis.incr _ _ _) as [[n|e] st2],
           (Redis.ping _ _) as [[b|e'] st3]; simpl in *;
    rewrite ?Hi, ?Hp;
    (split; [intros v Hv; vm_compute in Hv; by simplify_eq|]);
    (split; [intros Hs; try done; eauto|]);
    (split; [intros Hc; vm_compute in Hc; by simplify_eq|]);
    intros Hc; vm_compute in Hc; try done; eauto.
Qed.

Lemma handlers_log_their_outcome_witness :
  let st := fresh [link_up; link_up] in
  logs (proc (serve GET_count st).2)
  = [ version_record "7.2.4"; visit_record 1 ].
Proof.
  apply (proj1 (handlers_log_their_outcome (fresh [link_up; link_up])) 1).
  vm_compute. reflexivity.
Defined.

(** ** The version that was fetched *)

Lemma info_result conn st i :
  (Redis.info conn st).1 = inl i -> i = server_info (world st).
Proof.
  unfold Redis.info, roundtrip, take_link. simpl.
  destruct (dial _ _) as [dc|[d e]]; simpl; [|done].
  destruct (within _ _); simpl; [|done]. by intros [= <-].
Qed.

(** X10 (one version everywhere).  When the first [get_redis] of a process
    gets an answer to INFO, the value it caches is the server's
    [redis_version], or "unknown" if the answer has no such entry; the
    same value is in the INFO record it logs and in the [redis_version] of
    the [/count] response being built. *)
Theorem fetched_version_is_consistent (st : State) (i : gmap string string) :
  cache st = None ->
  (Redis.info (conn_of st) st).1 = inl i ->
  let v := default "unknown" (server_info (world st) !! "redis_version") in
  cache (get_redis st).2 = Some v
  /\ logs (proc (get_redis st).2)
     = logs (proc st)
       ++ [mkLog INFO "Connected to Redis"
             (Some ("{" +:+ dq +:+ "version" +:+ dq +:+ ": " +:+ dq +:+ v
                    +:+ dq +:+ "}"))]
  /\ (ok (serve GET_count st).1 ->
      redis_version (serve GET_count st).1 = Some (JStr v)).
Proof.
  intros Hnone Hinfo. cbv zeta.
  pose proof (info_result _ _ _ Hinfo) as ->.
  pose proof (roundtrip_frame (conn_of st) CmdInfo
                (fun w => (inl (server_info w), w)) st
                (store_only_const server_info)) as (Hp & _).
  fold (Redis.info (conn_of st)) in Hp.
  assert (Hc : cache (get_redis st).2
               = Some (default "unknown" (server_info (world st) !! "redis_version"))).
  { pose proof (get_redis_first st Hnone) as Hf. by rewrite Hinfo in Hf. }
  split; [exact Hc|]. split.
  - destruct (Redis.info (conn_of st) st) as [[i|e] st1] eqn:Hi;
      simpl in Hinfo, Hp; [|done]. simplify_eq.
    erewrite get_redis_fetched by done. simpl. by rewrite Hp.
  - intros Hok. destruct (serve_cache GET_count st) as (Hget & _ & Hresp & _).
    cbv zeta in Hget, Hresp. by rewrite (Hresp eq_refl Hok), Hget, Hc.
Qed.

Lemma fetched_version_is_consistent_witness :
  let st := fresh [link_up; link_up] in
  cache (get_redis st).2 = Some "7.2.4"
  /\ redis_version (serve GET_count st).1 = Some (JStr "7.2.4").
Proof.
  destruct (fetched_version_is_consistent (fresh [link_up; link_up])
              {[ "redis_version" := "7.2.4" ]}
              ltac:(reflexivity) ltac:(vm_compute; reflexivity))
    as (Hc & _ & Hr).
  split; [exact Hc|]. apply Hr. vm_compute. reflexivity.
Defined.
